(** * nnvm/node.h: the node and edge data model of the graph IR

    A shallow embedding of [include/nnvm/node.h]: the three structs
    [NodeEntry], [NodeAttrs] and [Node], the three inline member functions
    [Node::is_variable], [Node::num_outputs] and [Node::num_inputs], and the
    shared-ownership discipline that [NodePtr = std::shared_ptr<Node>]
    imposes on the objects of a graph.

    Member functions are computations over the state of the object they are
    called on; they may fault (a null pointer dereferenced, an empty
    [std::function] called) and they record every read made through the
    operator pointer [this->op]. *)

From Stdlib Require Import ZArith String List SpecFloat.
From stdpp Require Import gmap strings list fin_maps.

Local Open Scope Z_scope.

(** ** Scalar types *)

(** [uint32_t].  node.h performs no arithmetic on these values (it stores
    them and returns them), so no wrap-around is ever taken; the range is
    kept as a predicate. *)
Definition uint32_t : Type := Z.

Definition UINT32_MAX : Z := 2 ^ 32 - 1.

Definition is_uint32 (z : uint32_t) : Prop := 0 ≤ z ≤ UINT32_MAX.

(** [double], as an IEEE-754 datum. *)
Definition double : Type := spec_float.

(** Modelled from the spec: [any] is declared in base.h, which is not among
    the sources.  The spec calls it "an opaque, type-erased slot holding an
    operator-specific structured parameter object ... absent until parsed". *)
Inductive any : Type :=
| any_empty
| any_holds (T : Type) (v : T).

(** ** Pointers *)

(** The address of a heap-allocated [Node]. *)
Definition addr : Type := positive.

(** [using NodePtr = std::shared_ptr<Node>]: empty, or sharing ownership of
    the node stored at an address. *)
Definition NodePtr : Type := option addr.

Definition is_nullptr {A : Type} (p : option A) : bool :=
  match p with
  | None => true
  | Some _ => false
  end.

(** ** The structs of node.h *)

Record NodeEntry : Type := {
  node : NodePtr;
  index : uint32_t;
  version : uint32_t
}.

Record NodeAttrs : Type := {
  name : string;
  scalars : list double;
  dict : gmap string string;
  parsed : any
}.

(** Modelled from the spec: [Op] is declared in op.h, which is not among the
    sources.  node.h reads four of its members; the spec describes them as
    "a static input/output count, and optionally a dynamic-arity callback
    taking NodeAttrs and returning a count".  A [std::function] that
    compares equal to [nullptr] is [None]. *)
Module Op.
Record t : Type := {
  num_inputs : uint32_t;
  num_outputs : uint32_t;
  get_num_outputs : option (NodeAttrs → uint32_t);
  get_num_inputs : option (NodeAttrs → uint32_t)
}.
End Op.

Abbreviation Op := Op.t.

Record Node : Type := {
  op : option Op;                (* const Op *op{nullptr} *)
  inputs : list NodeEntry;
  control_deps : list NodePtr;
  attrs : NodeAttrs
}.

(** The value of a default-constructed [NodeAttrs] and [Node]: the member
    initialiser [op{nullptr}], empty vectors, empty string, empty map, empty
    [any]. *)
Definition NodeAttrs_default : NodeAttrs :=
  {| name := EmptyString; scalars := []; dict := ∅; parsed := any_empty |}.

Definition Node_default : Node :=
  {| op := None; inputs := []; control_deps := []; attrs := NodeAttrs_default |}.

(** ** Computations *)

Inductive fault : Type :=
| NullDeref          (* [->] through a null pointer *)
| BadFunctionCall    (* an empty std::function called *)
| UseAfterFree.      (* a pointer to an object that was destroyed *)

(** The members of [Op] that node.h reads through [this->op]. *)
Inductive op_field : Type :=
| f_num_inputs
| f_num_outputs
| f_get_num_inputs
| f_get_num_outputs.

Inductive outcome (S A : Type) : Type :=
| Returns (a : A) (s : S)
| Faults (f : fault).

Arguments Returns {S A} a s.
Arguments Faults {S A} f.

(** A computation over a state [S]: from the state before, the reads made
    through the operator pointer, and either a result with the state after
    or a fault. *)
Definition exec (S A : Type) : Type := S → list op_field * outcome S A.

Definition exec_ret {S A : Type} (a : A) : exec S A :=
  λ s, ([], Returns a s).

Definition exec_bind {S A B : Type} (k : A → exec S B) (m : exec S A) : exec S B :=
  λ s, match m s with
       | (l, Returns a s') => let '(l', r) := k a s' in (l ++ l', r)
       | (l, Faults f) => (l, Faults f)
       end.

Definition exec_fail {S A : Type} (f : fault) : exec S A :=
  λ _, ([], Faults f).

#[global] Instance exec_mret {S : Type} : MRet (exec S) := @exec_ret S.
#[global] Instance exec_mbind {S : Type} : MBind (exec S) := @exec_bind S.

(** The result and the final state of a run, when there is one. *)
Definition result {S A : Type} (r : list op_field * outcome S A) : option A :=
  match r.2 with
  | Returns a _ => Some a
  | Faults _ => None
  end.

Definition final {S A : Type} (r : list op_field * outcome S A) : option S :=
  match r.2 with
  | Returns _ s => Some s
  | Faults _ => None
  end.

Definition reads {S A : Type} (r : list op_field * outcome S A) : list op_field := r.1.

(** ** The heap of shared nodes *)

(** What a [std::shared_ptr<Node>] points to: the node, and the number of
    [shared_ptr] instances that own it. *)
Record block : Type := {
  use_count : nat;
  object : Node
}.

Abbreviation heap := (gmap addr block).

(** ** Member functions of [Node] *)

Module Node.

(** A member function runs on the state of [*this]. *)
Definition method (A : Type) : Type := exec Node A.

(** [this->op], the pointer itself. *)
Definition this_op : method (option Op) :=
  λ this, ([], Returns (op this) this).

(** [this->attrs]. *)
Definition this_attrs : method NodeAttrs :=
  λ this, ([], Returns (attrs this) this).

(** [p->f] for a member [f] of [Op]. *)
Definition arrow {A : Type} (p : option Op) (f : op_field) (get : Op → A) : method A :=
  λ this, match p with
          | None => ([f], Faults NullDeref)
          | Some o => ([f], Returns (get o) this)
          end.

(** [g(a)] for a [std::function] [g]. *)
Definition invoke (g : option (NodeAttrs → uint32_t)) (a : NodeAttrs) : method uint32_t :=
  match g with
  | None => exec_fail BadFunctionCall
  | Some f => mret (f a)
  end.

(** [inline bool Node::is_variable() const] *)
Definition is_variable : method bool :=
  p ← this_op;
  mret (is_nullptr p).

(** [inline uint32_t Node::num_outputs() const] *)
Definition num_outputs : method uint32_t :=
  v ← is_variable;
  if v : bool then mret 1
  else
    p ← this_op;
    g ← arrow p f_get_num_outputs Op.get_num_outputs;
    if is_nullptr g then
      p ← this_op;
      arrow p f_num_outputs Op.num_outputs
    else
      p ← this_op;
      g ← arrow p f_get_num_outputs Op.get_num_outputs;
      a ← this_attrs;
      invoke g a.

(** [inline uint32_t Node::num_inputs() const] *)
Definition num_inputs : method uint32_t :=
  v ← is_variable;
  if v : bool then mret 1
  else
    p ← this_op;
    g ← arrow p f_get_num_inputs Op.get_num_inputs;
    if is_nullptr g then
      p ← this_op;
      arrow p f_num_inputs Op.num_inputs
    else
      p ← this_op;
      g ← arrow p f_get_num_inputs Op.get_num_inputs;
      a ← this_attrs;
      invoke g a.

(** Assignments to the public data members, as graph-construction code does
    them: [n.op = o], [n.attrs = a], [n.inputs.push_back(e)],
    [n.control_deps.push_back(p)]. *)
Definition set_op (o : option Op) : method unit :=
  λ this, ([], Returns tt {| op := o; inputs := inputs this;
                             control_deps := control_deps this; attrs := attrs this |}).

Definition set_attrs (a : NodeAttrs) : method unit :=
  λ this, ([], Returns tt {| op := op this; inputs := inputs this;
                             control_deps := control_deps this; attrs := a |}).

Definition push_input (e : NodeEntry) : method unit :=
  λ this, ([], Returns tt {| op := op this; inputs := inputs this ++ [e];
                             control_deps := control_deps this; attrs := attrs this |}).

Definition push_control_dep (p : NodePtr) : method unit :=
  λ this, ([], Returns tt {| op := op this; inputs := inputs this;
                             control_deps := control_deps this ++ [p]; attrs := attrs this |}).

(** Modelled from the spec: [static NodePtr Create()] is declared in node.h
    and defined outside the sources.  The spec: "a factory produces a new
    Node with no operator, empty inputs/control_deps, and default-initialized
    attrs; ownership of the returned Node is shared", and "no validation is
    performed at construction time".  The new node is placed at an address
    that is not in use and has one owner, the pointer returned. *)
Definition Create : exec heap NodePtr :=
  λ h, let a := fresh (dom h) in
       ([], Returns (Some a) (<[a := {| use_count := 1; object := Node_default |}]> h)).

End Node.

(** ** Operations on [NodePtr] *)

Definition share_block (b : block) : block :=
  {| use_count := S (use_count b); object := object b |}.

Definition unshare_block (b : block) : block :=
  {| use_count := pred (use_count b); object := object b |}.

(** Copy construction of a [shared_ptr]: the same address, one more owner. *)
Definition copy_ptr (p : NodePtr) : exec heap NodePtr :=
  λ h, ([], Returns p match p with
                      | None => h
                      | Some a => alter share_block a h
                      end).

(** [p->m()]: the member function [m] runs on the node [p] points to. *)
Definition call {A : Type} (p : NodePtr) (m : Node.method A) : exec heap A :=
  λ h, match p with
       | None => ([], Faults NullDeref)
       | Some a =>
         match h !! a with
         | None => ([], Faults UseAfterFree)
         | Some b =>
           match m (object b) with
           | (l, Returns r this') =>
             (l, Returns r (<[a := {| use_count := use_count b; object := this' |}]> h))
           | (l, Faults f) => (l, Faults f)
           end
         end
       end.

(** [NodeEntry{N, i, v}]: aggregate initialisation of the three members; the
    pointer is copied into the entry. *)
Definition NodeEntry_init (N : NodePtr) (i v : uint32_t) : exec heap NodeEntry :=
  p ← copy_ptr N;
  mret {| node := p; index := i; version := v |}.

(** The pointers a node owns, in the order its members are destroyed
    (members in reverse order of declaration, elements front to back). *)
Definition owned (n : Node) : list NodePtr :=
  control_deps n ++ map node (inputs n).

(** Destruction of [shared_ptr]s.  [~Node()] is declared in node.h and
    defined outside the sources; what is modelled here is what C++ does
    whatever its body is: a pointer that goes away gives up its share, the
    node is destroyed when no share is left, and a destroyed node's members
    are destroyed in turn.  [stack] holds the pointers still to be
    destroyed, depth first. *)
Fixpoint release_loop (fuel : nat) (stack : list NodePtr) (h : heap) : option heap :=
  match stack with
  | [] => Some h
  | p :: rest =>
    match fuel with
    | O => None
    | S fuel' =>
      match p with
      | None => release_loop fuel' rest h
      | Some a =>
        match h !! a with
        | None => release_loop fuel' rest h
        | Some b =>
          if decide (use_count b ≤ 1)%nat
          then release_loop fuel' (owned (object b) ++ rest) (delete a h)
          else release_loop fuel' rest (<[a := unshare_block b]> h)
        end
      end
    end
  end.

(** A bound on the number of steps of [release_loop]. *)
Definition weight (b : block) : nat :=
  (use_count b + length (owned (object b)))%nat.

Definition heap_weight (h : heap) : nat :=
  map_fold (λ (_ : addr) (b : block) (n : nat), (weight b + n)%nat) O h.

Definition potential (stack : list NodePtr) (h : heap) : nat :=
  (length stack + heap_weight h)%nat.

(** [p] goes out of scope (or [p.reset()]).  The potential is fuel enough
    ([release_returns] below), so the last case never arises. *)
Definition release (p : NodePtr) : exec heap unit :=
  λ h, match release_loop (potential [p] h) [p] h with
       | Some h' => ([], Returns tt h')
       | None => ([], Faults UseAfterFree)
       end.

(** An operator descriptor as a C++ program can hold it: its counts are
    [uint32_t] values and its callbacks return [uint32_t] values. *)
Definition Op_in_range (o : Op) : Prop :=
  is_uint32 (Op.num_inputs o) ∧ is_uint32 (Op.num_outputs o) ∧
  (∀ f a, Op.get_num_outputs o = Some f → is_uint32 (f a)) ∧
  (∀ g a, Op.get_num_inputs o = Some g → is_uint32 (g a)).

(** ** Sample operators and graphs *)

(** An operator of fixed arity: two inputs, one output. *)
Definition add_op : Op :=
  {| Op.num_inputs := 2; Op.num_outputs := 1;
     Op.get_num_outputs := None; Op.get_num_inputs := None |}.

(** Operators whose arity is read off the attributes: as many outputs
    (inputs) as there are positional scalars. *)
Definition count_scalars (a : NodeAttrs) : uint32_t :=
  Z.of_nat (length (scalars a)).

Definition split_op : Op :=
  {| Op.num_inputs := 1; Op.num_outputs := 1;
     Op.get_num_outputs := Some count_scalars; Op.get_num_inputs := None |}.

Definition concat_op : Op :=
  {| Op.num_inputs := 1; Op.num_outputs := 1;
     Op.get_num_outputs := None; Op.get_num_inputs := Some count_scalars |}.

Definition attrs_with_scalars (n : nat) : NodeAttrs :=
  {| name := EmptyString; scalars := replicate n (S754_zero false);
     dict := ∅; parsed := any_empty |}.

Definition node_of (o : Op) (a : NodeAttrs) : Node :=
  {| op := Some o; inputs := []; control_deps := []; attrs := a |}.

(** A heap with one node, owned once, and with one node, owned twice. *)
Definition one_node_heap (n : Node) : heap :=
  {[ 1%positive := {| use_count := 1; object := n |} ]}.

Definition shared_node_heap (n : Node) : heap :=
  {[ 1%positive := {| use_count := 2; object := n |} ]}.

(** Two nodes [a] and [b], [a.control_deps = {b}]; then both local pointers
    go out of scope. *)
Definition chain_graph : exec heap unit :=
  a ← Node.Create;
  b ← Node.Create;
  pb ← copy_ptr b;
  _ ← call a (Node.push_control_dep pb);
  _ ← release a;
  release b.

(** The same with [b.control_deps = {a}] as well: a cycle through control
    dependencies only. *)
Definition cycle_graph : exec heap unit :=
  a ← Node.Create;
  b ← Node.Create;
  pb ← copy_ptr b;
  _ ← call a (Node.push_control_dep pb);
  pa ← copy_ptr a;
  _ ← call b (Node.push_control_dep pa);
  _ ← release a;
  release b.

Definition cycle_node (to : addr) : block :=
  {| use_count := 1;
     object := {| op := None; inputs := []; control_deps := [Some to];
                  attrs := NodeAttrs_default |} |}.

(** ** Reference counts *)

(** A sum over the nodes of a heap. *)
Definition heap_sum (w : block → nat) (h : heap) : nat :=
  map_fold (λ (_ : addr) (b : block) (n : nat), (w b + n)%nat) O h.

(** How often a pointer to [a] occurs among [ps]. *)
Definition occurrences (a : addr) (ps : list NodePtr) : nat :=
  length (filter (λ p, p = Some a) ps).

(** The pointers to [a] held by the nodes of the heap, in [inputs] and in
    [control_deps]. *)
Definition incoming (h : heap) (a : addr) : nat :=
  heap_sum (λ b, occurrences a (owned (object b))) h.

(** The heap agrees with the pointers that exist: [roots] are the pointers
    held outside the heap (locals, graph outputs); every node has at least
    one owner and its [use_count] is the number of pointers to it, and no
    pointer leads to an address without a node. *)
Definition counted (roots : list NodePtr) (h : heap) : Prop :=
  ∀ a : addr,
    match h !! a with
    | Some b => (1 ≤ use_count b)%nat ∧
                use_count b = (incoming h a + occurrences a roots)%nat
    | None => (incoming h a + occurrences a roots)%nat = O
    end.

(** The arity an operator gives a node with attributes [a]. *)
Definition Op_outputs (o : Op) (a : NodeAttrs) : uint32_t :=
  match Op.get_num_outputs o with
  | Some f => f a
  | None => Op.num_outputs o
  end.

Definition Op_inputs (o : Op) (a : NodeAttrs) : uint32_t :=
  match Op.get_num_inputs o with
  | Some g => g a
  | None => Op.num_inputs o
  end.

(** A node made by the factory and turned into an operator node through the
    pointer: [p = Node::Create(); p->op = o; p->attrs = a;] and then the two
    queries through [p]. *)
Definition make_operator_node (o : Op) (a : NodeAttrs) : exec heap (NodePtr * uint32_t * uint32_t) :=
  p ← Node.Create;
  _ ← call p (Node.set_op (Some o));
  _ ← call p (Node.set_attrs a);
  x ← call p Node.num_outputs;
  y ← call p Node.num_inputs;
  mret (p, x, y).

(** Two entries made from one pointer; the attributes are assigned through
    the first and the output count is asked through the second. *)
Definition assign_through_alias (N : NodePtr) (a' : NodeAttrs) : exec heap uint32_t :=
  e1 ← NodeEntry_init N 0 0;
  e2 ← NodeEntry_init N 0 0;
  _ ← call (node e1) (Node.set_attrs a');
  call (node e2) Node.num_outputs.

(** A consumer with one input from, and one control dependency on, the node
    at address 1; the consumer is held by one outside pointer. *)
Definition consumer_of_1 : Node :=
  {| op := Some add_op;
     inputs := [{| node := Some 1%positive; index := 0; version := 0 |}];
     control_deps := [Some 1%positive];
     attrs := NodeAttrs_default |}.

Definition consumer_heap : heap :=
  {[ 1%positive := {| use_count := 2; object := Node_default |};
     2%positive := {| use_count := 1; object := consumer_of_1 |} ]}.

(** A set of nodes that keeps itself alive: each of them is in the heap and
    is pointed to by a node of the set (a cycle of control dependencies, for
    one). *)
Definition self_sustaining (C : gset addr) (h : heap) : Prop :=
  ∀ c : addr, c ∈ C →
    is_Some (h !! c) ∧
    ∃ (c' : addr) (b' : block),
      c' ∈ C ∧ h !! c' = Some b' ∧ Some c ∈ owned (object b').

(** The cycle of [cycle_graph] while the pointer to its second node is
    still held. *)
Definition held_cycle_heap : heap :=
  {[ 1%positive := cycle_node 2%positive;
     2%positive := {| use_count := 2; object := object (cycle_node 1%positive) |} ]}.

(** * Properties *)

(** ** The three member functions, branch by branch *)

Section Arity.

Variable N : Node.

Lemma is_variable_run :
  Node.is_variable N = ([], Returns (is_nullptr (op N)) N).
Proof. reflexivity. Qed.

Lemma num_outputs_variable :
  op N = None → Node.num_outputs N = ([], Returns 1 N).
Proof.
  intros Hop. unfold Node.num_outputs, mbind, exec_mbind, exec_bind.
  rewrite is_variable_run, Hop. reflexivity.
Qed.

Lemma num_inputs_variable :
  op N = None → Node.num_inputs N = ([], Returns 1 N).
Proof.
  intros Hop. unfold Node.num_inputs, mbind, exec_mbind, exec_bind.
  rewrite is_variable_run, Hop. reflexivity.
Qed.

Variable o : Op.
Hypothesis Hop : op N = Some o.

Lemma num_outputs_static :
  Op.get_num_outputs o = None →
  Node.num_outputs N = ([f_get_num_outputs; f_num_outputs], Returns (Op.num_outputs o) N).
Proof.
  intros Hg. unfold Node.num_outputs, mbind, exec_mbind, exec_bind.
  rewrite is_variable_run, Hop. cbn. rewrite Hop. cbn. rewrite Hg. cbn.
  rewrite Hop. reflexivity.
Qed.

Lemma num_outputs_dynamic (f : NodeAttrs → uint32_t) :
  Op.get_num_outputs o = Some f →
  Node.num_outputs N = ([f_get_num_outputs; f_get_num_outputs], Returns (f (attrs N)) N).
Proof.
  intros Hg. unfold Node.num_outputs, mbind, exec_mbind, exec_bind.
  rewrite is_variable_run, Hop. cbn. rewrite Hop. cbn. rewrite Hg. cbn.
  rewrite Hop. cbn. rewrite Hg. reflexivity.
Qed.

Lemma num_inputs_static :
  Op.get_num_inputs o = None →
  Node.num_inputs N = ([f_get_num_inputs; f_num_inputs], Returns (Op.num_inputs o) N).
Proof.
  intros Hg. unfold Node.num_inputs, mbind, exec_mbind, exec_bind.
  rewrite is_variable_run, Hop. cbn. rewrite Hop. cbn. rewrite Hg. cbn.
  rewrite Hop. reflexivity.
Qed.

Lemma num_inputs_dynamic (g : NodeAttrs → uint32_t) :
  Op.get_num_inputs o = Some g →
  Node.num_inputs N = ([f_get_num_inputs; f_get_num_inputs], Returns (g (attrs N)) N).
Proof.
  intros Hg. unfold Node.num_inputs, mbind, exec_mbind, exec_bind.
  rewrite is_variable_run, Hop. cbn. rewrite Hop. cbn. rewrite Hg. cbn.
  rewrite Hop. cbn. rewrite Hg. reflexivity.
Qed.

End Arity.

(** ** Sequencing *)

Lemma bind_returns {S A B : Type} (m : exec S A) (k : A → exec S B)
    (s s' : S) (l : list op_field) (a : A) :
  m s = (l, Returns a s') →
  (m ≫= k) s = ((l ++ (k a s').1), (k a s').2).
Proof.
  intros Hm. unfold mbind, exec_mbind, exec_bind. rewrite Hm.
  destruct (k a s') as [l' r]. reflexivity.
Qed.

Lemma bind_faults {S A B : Type} (m : exec S A) (k : A → exec S B)
    (s : S) (l : list op_field) (f : fault) :
  m s = (l, Faults f) → (m ≫= k) s = (l, Faults f).
Proof.
  intros Hm. unfold mbind, exec_mbind, exec_bind. rewrite Hm. reflexivity.
Qed.

(** Both arity queries return on every node, and leave it as it was. *)
Lemma num_outputs_returns (N : Node) :
  ∃ l k, Node.num_outputs N = (l, Returns k N).
Proof.
  destruct (op N) as [o|] eqn:Hop.
  - destruct (Op.get_num_outputs o) as [f|] eqn:Hg.
    + eauto using num_outputs_dynamic.
    + eauto using num_outputs_static.
  - eauto using num_outputs_variable.
Qed.

Lemma num_inputs_returns (N : Node) :
  ∃ l k, Node.num_inputs N = (l, Returns k N).
Proof.
  destruct (op N) as [o|] eqn:Hop.
  - destruct (Op.get_num_inputs o) as [g|] eqn:Hg.
    + eauto using num_inputs_dynamic.
    + eauto using num_inputs_static.
  - eauto using num_inputs_variable.
Qed.

(** The counts returned are [uint32_t] values: nothing was lost by leaving
    the wrap-around out. *)
Lemma arity_in_range (N : Node) (k : uint32_t) :
  (∀ o, op N = Some o → Op_in_range o) →
  result (Node.num_outputs N) = Some k ∨ result (Node.num_inputs N) = Some k →
  is_uint32 k.
Proof.
  intros Hwf Hk. destruct (op N) as [o|] eqn:Hop.
  - destruct (Hwf o eq_refl) as (Hin & Hout & Hf & Hg).
    destruct Hk as [Hk|Hk].
    + destruct (Op.get_num_outputs o) as [f|] eqn:Hget.
      * rewrite (num_outputs_dynamic N o Hop f Hget) in Hk.
        injection Hk as <-. eauto.
      * rewrite (num_outputs_static N o Hop Hget) in Hk.
        injection Hk as <-. exact Hout.
    + destruct (Op.get_num_inputs o) as [g|] eqn:Hget.
      * rewrite (num_inputs_dynamic N o Hop g Hget) in Hk.
        injection Hk as <-. eauto.
      * rewrite (num_inputs_static N o Hop Hget) in Hk.
        injection Hk as <-. exact Hin.
  - rewrite (num_outputs_variable N Hop), (num_inputs_variable N Hop) in Hk.
    assert (k = 1) as -> by (destruct Hk as [Hk|Hk]; injection Hk as <-; reflexivity).
    unfold is_uint32, UINT32_MAX. lia.
Qed.

(** A read through a null operator pointer is a fault of the model: the
    guard of the arity queries is what keeps them from it. *)
Lemma arrow_null_faults {A : Type} (f : op_field) (get : Op → A) (N : Node) :
  Node.arrow None f get N = ([f], Faults NullDeref).
Proof. reflexivity. Qed.

(** ** Placeholder variables *)

(** C1. A node without operator is a variable and has one input and one
    output, whatever its inputs, control dependencies and attributes are. *)
Theorem placeholder_has_unit_arity
    (ins : list NodeEntry) (deps : list NodePtr) (a : NodeAttrs) :
  let N := {| op := None; inputs := ins; control_deps := deps; attrs := a |} in
  result (Node.is_variable N) = Some true ∧
  result (Node.num_inputs N) = Some 1 ∧
  result (Node.num_outputs N) = Some 1.
Proof.
  intros N. split; [reflexivity|].
  rewrite (num_inputs_variable N), (num_outputs_variable N) by reflexivity.
  split; reflexivity.
Qed.

(** C4. [is_variable] answers true exactly when no operator is set. *)
Theorem is_variable_iff_no_op (N : Node) :
  ∃ b : bool, result (Node.is_variable N) = Some b ∧ (b = true ↔ op N = None).
Proof.
  exists (is_nullptr (op N)). rewrite is_variable_run. split; [reflexivity|].
  destruct (op N); cbn; split; congruence.
Qed.

(** C10. On a node without operator both arity queries return 1 with no
    read through the operator pointer: the test of [is_variable] comes
    first, and no branch that dereferences [op] is taken. *)
Theorem variable_arity_never_reads_op (N : Node) :
  op N = None →
  Node.num_outputs N = ([], Returns 1 N) ∧
  Node.num_inputs N = ([], Returns 1 N) ∧
  reads (Node.num_outputs N) = [] ∧
  reads (Node.num_inputs N) = [].
Proof.
  intros Hop.
  rewrite (num_outputs_variable N Hop), (num_inputs_variable N Hop).
  repeat split.
Qed.

Lemma variable_arity_never_reads_op_witness :
  Node.num_outputs Node_default = ([], Returns 1 Node_default) ∧
  Node.num_inputs Node_default = ([], Returns 1 Node_default) ∧
  reads (Node.num_outputs Node_default) = [] ∧
  reads (Node.num_inputs Node_default) = [].
Proof. apply (variable_arity_never_reads_op Node_default). reflexivity. Defined.

(** ** Operator nodes *)

(** C2. With a dynamic-arity callback the count is the callback applied to
    the attributes the node has when asked: a query, an assignment to
    [attrs] and a second query give the callback's value on the old and on
    the new attributes.  The same for inputs. *)
Theorem dynamic_arity_follows_attrs (N : Node) (o : Op) (a' : NodeAttrs) :
  op N = Some o →
  (∀ f, Op.get_num_outputs o = Some f →
     result (Node.num_outputs N) = Some (f (attrs N)) ∧
     result ((x ← Node.num_outputs; _ ← Node.set_attrs a';
              y ← Node.num_outputs; mret (x, y)) N) = Some (f (attrs N), f a')) ∧
  (∀ g, Op.get_num_inputs o = Some g →
     result (Node.num_inputs N) = Some (g (attrs N)) ∧
     result ((x ← Node.num_inputs; _ ← Node.set_attrs a';
              y ← Node.num_inputs; mret (x, y)) N) = Some (g (attrs N), g a')).
Proof.
  intros Hop.
  set (N' := {| op := op N; inputs := inputs N;
                control_deps := control_deps N; attrs := a' |}).
  assert (Hop' : op N' = Some o) by exact Hop.
  split.
  - intros f Hf.
    rewrite (num_outputs_dynamic N o Hop f Hf). split; [reflexivity|].
    rewrite (bind_returns _ _ _ _ _ _ (num_outputs_dynamic N o Hop f Hf)).
    rewrite (bind_returns _ _ N N' [] tt) by reflexivity.
    rewrite (bind_returns _ _ _ _ _ _ (num_outputs_dynamic N' o Hop' f Hf)).
    reflexivity.
  - intros g Hg.
    rewrite (num_inputs_dynamic N o Hop g Hg). split; [reflexivity|].
    rewrite (bind_returns _ _ _ _ _ _ (num_inputs_dynamic N o Hop g Hg)).
    rewrite (bind_returns _ _ N N' [] tt) by reflexivity.
    rewrite (bind_returns _ _ _ _ _ _ (num_inputs_dynamic N' o Hop' g Hg)).
    reflexivity.
Qed.

Lemma dynamic_arity_follows_attrs_witness :
  (result (Node.num_outputs (node_of split_op (attrs_with_scalars 2))) = Some 2 ∧
   result ((x ← Node.num_outputs; _ ← Node.set_attrs (attrs_with_scalars 3);
            y ← Node.num_outputs; mret (x, y))
             (node_of split_op (attrs_with_scalars 2))) = Some (2, 3)) ∧
  (result (Node.num_inputs (node_of concat_op (attrs_with_scalars 2))) = Some 2 ∧
   result ((x ← Node.num_inputs; _ ← Node.set_attrs (attrs_with_scalars 3);
            y ← Node.num_inputs; mret (x, y))
             (node_of concat_op (attrs_with_scalars 2))) = Some (2, 3)).
Proof.
  split.
  - exact (proj1 (dynamic_arity_follows_attrs
                    (node_of split_op (attrs_with_scalars 2))
                    split_op (attrs_with_scalars 3) eq_refl)
             count_scalars eq_refl).
  - exact (proj2 (dynamic_arity_follows_attrs
                    (node_of concat_op (attrs_with_scalars 2))
                    concat_op (attrs_with_scalars 3) eq_refl)
             count_scalars eq_refl).
Defined.

(** C3. Without a callback the count is the operator's static count,
    whatever the attributes (and the other members) of the node are. *)
Theorem static_arity_ignores_attrs
    (o : Op) (ins : list NodeEntry) (deps : list NodePtr) (a : NodeAttrs) :
  let N := {| op := Some o; inputs := ins; control_deps := deps; attrs := a |} in
  (Op.get_num_outputs o = None →
     result (Node.num_outputs N) = Some (Op.num_outputs o)) ∧
  (Op.get_num_inputs o = None →
     result (Node.num_inputs N) = Some (Op.num_inputs o)).
Proof.
  intros N. split; intros Hg.
  - rewrite (num_outputs_static N o eq_refl Hg). reflexivity.
  - rewrite (num_inputs_static N o eq_refl Hg). reflexivity.
Qed.

Lemma static_arity_ignores_attrs_witness :
  result (Node.num_outputs (node_of add_op (attrs_with_scalars 5))) = Some 1 ∧
  result (Node.num_inputs (node_of add_op (attrs_with_scalars 5))) = Some 2.
Proof.
  destruct (static_arity_ignores_attrs add_op [] [] (attrs_with_scalars 5)) as [Hout Hin].
  split; [apply Hout | apply Hin]; reflexivity.
Defined.

(** C7. The arity queries return on every node, leave the node as it was,
    and asked twice in a row give the same answer twice. *)
Theorem arity_queries_are_pure (N : Node) :
  ∃ k_out k_in : uint32_t,
    result (Node.num_outputs N) = Some k_out ∧
    final (Node.num_outputs N) = Some N ∧
    result (Node.num_inputs N) = Some k_in ∧
    final (Node.num_inputs N) = Some N ∧
    (x ← Node.num_outputs; y ← Node.num_outputs; mret (x, y)) N
      = (reads (Node.num_outputs N) ++ reads (Node.num_outputs N),
         Returns (k_out, k_out) N) ∧
    (x ← Node.num_inputs; y ← Node.num_inputs; mret (x, y)) N
      = (reads (Node.num_inputs N) ++ reads (Node.num_inputs N),
         Returns (k_in, k_in) N).
Proof.
  destruct (num_outputs_returns N) as (lo & ko & Ho).
  destruct (num_inputs_returns N) as (li & ki & Hi).
  exists ko, ki. rewrite Ho, Hi. repeat split.
  - rewrite (bind_returns _ _ _ _ _ _ Ho), (bind_returns _ _ _ _ _ _ Ho).
    cbn. rewrite app_nil_r. reflexivity.
  - rewrite (bind_returns _ _ _ _ _ _ Hi), (bind_returns _ _ _ _ _ _ Hi).
    cbn. rewrite app_nil_r. reflexivity.
Qed.

(** ** Shared nodes *)

Lemma copy_ptr_run (h : heap) (a : addr) (b : block) :
  h !! a = Some b →
  copy_ptr (Some a) h = ([], Returns (Some a) (<[a := share_block b]> h)).
Proof.
  intros Hb. unfold copy_ptr. do 2 f_equal.
  apply map_eq. intros j. rewrite lookup_alter, lookup_insert.
  destruct (decide (a = j)) as [->|]; [rewrite Hb|]; reflexivity.
Qed.

Lemma NodeEntry_init_run (N : NodePtr) (i v : uint32_t) (h : heap) :
  ∃ h', NodeEntry_init N i v h
        = ([], Returns {| node := N; index := i; version := v |} h').
Proof. unfold NodeEntry_init. eexists. reflexivity. Qed.

(** A member function that leaves [*this] as it was leaves the heap as it
    was. *)
Lemma call_frame {A : Type} (m : Node.method A) (h : heap) (a : addr) (b : block)
    (l : list op_field) (r : A) :
  h !! a = Some b →
  m (object b) = (l, Returns r (object b)) →
  call (Some a) m h = (l, Returns r h).
Proof.
  intros Hb Hm. unfold call. rewrite Hb, Hm. do 2 f_equal.
  apply insert_id. rewrite Hb. destruct b; reflexivity.
Qed.

(** Asked through a pointer, the arity queries leave the whole heap as it
    was. *)
Lemma arity_calls_leave_heap (h : heap) (a : addr) (b : block) :
  h !! a = Some b →
  final (call (Some a) Node.num_outputs h) = Some h ∧
  final (call (Some a) Node.num_inputs h) = Some h.
Proof.
  intros Hb.
  destruct (num_outputs_returns (object b)) as (lo & ko & Ho).
  destruct (num_inputs_returns (object b)) as (li & ki & Hi).
  rewrite (call_frame _ h a b lo ko Hb Ho), (call_frame _ h a b li ki Hb Hi).
  split; reflexivity.
Qed.

(** C5. The three members of a constructed entry are the three values it
    was constructed from. *)
Theorem NodeEntry_round_trip (N : NodePtr) (i v : uint32_t) (h : heap) :
  ∃ e h', NodeEntry_init N i v h = ([], Returns e h') ∧
          node e = N ∧ index e = i ∧ version e = v.
Proof.
  destruct (NodeEntry_init_run N i v h) as [h' Hh'].
  eexists _, h'. split; [exact Hh'|]. repeat split.
Qed.

(** C8. An entry whose index is not below the producer's output count, or
    whose version is nonzero on a producer that is not a variable, is
    constructed all the same, with the index and the version it was given. *)
Theorem NodeEntry_init_unchecked (h : heap) (a : addr) (b : block) (i v : uint32_t) :
  h !! a = Some b →
  (∃ k, result (call (Some a) Node.num_outputs h) = Some k ∧ k ≤ i)
  ∨ (v ≠ 0 ∧ result (call (Some a) Node.is_variable h) = Some false) →
  ∃ e, NodeEntry_init (Some a) i v h = ([], Returns e (<[a := share_block b]> h)) ∧
       node e = Some a ∧ index e = i ∧ version e = v.
Proof.
  intros Hb _. exists {| node := Some a; index := i; version := v |}.
  split; [|repeat split].
  unfold NodeEntry_init.
  rewrite (bind_returns _ _ _ _ _ _ (copy_ptr_run h a b Hb)). reflexivity.
Qed.

Lemma NodeEntry_init_unchecked_witness :
  ∃ e, NodeEntry_init (Some 1%positive) 7 5
         (one_node_heap (node_of add_op NodeAttrs_default))
       = ([], Returns e (<[1%positive :=
                           share_block {| use_count := 1;
                                          object := node_of add_op NodeAttrs_default |}]>
                          (one_node_heap (node_of add_op NodeAttrs_default)))) ∧
       node e = Some 1%positive ∧ index e = 7 ∧ version e = 5.
Proof.
  apply (NodeEntry_init_unchecked
           (one_node_heap (node_of add_op NodeAttrs_default)) 1%positive
           {| use_count := 1; object := node_of add_op NodeAttrs_default |} 7 5).
  - reflexivity.
  - left. exists 1. split; [reflexivity | lia].
Defined.

(** C6. The factory returns a pointer to a node at an address that was not
    in use; the node has no operator, no inputs, no control dependencies and
    default attributes; it has one owner; the rest of the heap is as it was.
    It does so on every heap. *)
Theorem Create_gives_default_node (h : heap) :
  ∃ (a : addr) (h' : heap) (n : Node),
    Node.Create h = ([], Returns (Some a) h') ∧
    h !! a = None ∧
    h' !! a = Some {| use_count := 1; object := n |} ∧
    (∀ a', a' ≠ a → h' !! a' = h !! a') ∧
    op n = None ∧ inputs n = [] ∧ control_deps n = [] ∧
    name (attrs n) = EmptyString ∧ scalars (attrs n) = [] ∧
    dict (attrs n) = ∅ ∧ parsed (attrs n) = any_empty ∧
    result (call (Some a) Node.is_variable h') = Some true.
Proof.
  exists (fresh (dom h)), (<[fresh (dom h) := {| use_count := 1; object := Node_default |}]> h),
    Node_default.
  split; [reflexivity|].
  split; [apply not_elem_of_dom, is_fresh|].
  split; [apply lookup_insert_eq|].
  split; [intros a' Ha'; apply lookup_insert_ne; congruence|].
  repeat (split; [reflexivity|]).
  unfold call. rewrite lookup_insert_eq. reflexivity.
Qed.

(** ** Destruction *)

Lemma heap_weight_delete (h : heap) (a : addr) (b : block) :
  h !! a = Some b →
  heap_weight h = (weight b + heap_weight (delete a h))%nat.
Proof.
  intros Hb. unfold heap_weight.
  apply (map_fold_delete_L (λ (_ : addr) (b : block) (n : nat), (weight b + n)%nat));
    [|exact Hb].
  intros. lia.
Qed.

Lemma heap_weight_insert (h : heap) (a : addr) (b b' : block) :
  h !! a = Some b →
  heap_weight (<[a := b']> h) = (weight b' + heap_weight (delete a h))%nat.
Proof.
  intros Hb. rewrite <- (insert_delete_eq h a b'). unfold heap_weight.
  apply (map_fold_insert_L (λ (_ : addr) (b : block) (n : nat), (weight b + n)%nat)).
  - intros. lia.
  - apply lookup_delete_eq.
Qed.

(** Every step of [release_loop] lowers the potential, so the potential is
    fuel enough. *)
Lemma release_loop_enough (fuel : nat) :
  ∀ (stack : list NodePtr) (h : heap),
    (potential stack h ≤ fuel)%nat → is_Some (release_loop fuel stack h).
Proof.
  induction fuel as [|fuel IH]; intros stack h Hfuel.
  - destruct stack as [|p rest]; [eexists; reflexivity|].
    unfold potential in Hfuel. cbn in Hfuel. lia.
  - destruct stack as [|[a|] rest]; [eexists; reflexivity| |].
    + cbn. destruct (h !! a) as [b|] eqn:Hb.
      * unfold potential in Hfuel. cbn in Hfuel.
        destruct (decide (use_count b ≤ 1)%nat) as [Hlast|Hshared]; apply IH.
        -- rewrite (heap_weight_delete h a b Hb) in Hfuel.
           unfold potential, weight in *. rewrite length_app. lia.
        -- rewrite (heap_weight_delete h a b Hb) in Hfuel.
           unfold potential. rewrite (heap_weight_insert h a b _ Hb).
           unfold weight, unshare_block in *. cbn. lia.
      * apply IH. unfold potential in *. cbn in Hfuel. lia.
    + cbn. apply IH. unfold potential in *. cbn in Hfuel. lia.
Qed.

(** More fuel does not change a result. *)
Lemma release_loop_more_fuel (fuel : nat) :
  ∀ (fuel' : nat) (stack : list NodePtr) (h h' : heap),
    release_loop fuel stack h = Some h' → (fuel ≤ fuel')%nat →
    release_loop fuel' stack h = Some h'.
Proof.
  induction fuel as [|fuel IH]; intros fuel' stack h h' Hrun Hle.
  - destruct stack; [|discriminate]. destruct fuel'; exact Hrun.
  - destruct stack as [|p rest]; [destruct fuel'; exact Hrun|].
    destruct fuel' as [|fuel']; [lia|].
    cbn in *. destruct p as [a|]; [|apply IH; [exact Hrun | lia]].
    destruct (h !! a) as [b|]; [|apply IH; [exact Hrun | lia]].
    destruct (decide (use_count b ≤ 1)%nat); apply IH; (exact Hrun || lia).
Qed.

(** Destruction allocates nothing. *)
Lemma release_loop_dom (fuel : nat) :
  ∀ (stack : list NodePtr) (h h' : heap),
    release_loop fuel stack h = Some h' → dom h' ⊆ dom h.
Proof.
  induction fuel as [|fuel IH]; intros stack h h' Hrun.
  - destruct stack; [|discriminate]. cbn in Hrun. by simplify_eq.
  - destruct stack as [|p rest]; [cbn in Hrun; by simplify_eq|].
    cbn in Hrun. destruct p as [a|]; [|exact (IH _ _ _ Hrun)].
    destruct (h !! a) as [b|] eqn:Hb; [|exact (IH _ _ _ Hrun)].
    destruct (decide (use_count b ≤ 1)%nat).
    + apply IH in Hrun. intros x Hx. apply Hrun in Hx.
      rewrite dom_delete_L in Hx. apply elem_of_difference in Hx as [Hx _]. exact Hx.
    + apply IH in Hrun. intros x Hx. apply Hrun in Hx.
      rewrite dom_insert_L in Hx. apply elem_of_union in Hx as [Hx|Hx]; [|exact Hx].
      apply elem_of_singleton in Hx as ->. apply elem_of_dom. eauto.
Qed.

(** Releasing a pointer always returns. *)
Lemma release_returns (p : NodePtr) (h : heap) :
  ∃ h', release p h = ([], Returns tt h') ∧ dom h' ⊆ dom h.
Proof.
  unfold release.
  destruct (release_loop_enough (potential [p] h) [p] h (le_n _)) as [h' Hrun].
  rewrite Hrun. exists h'. split; [reflexivity|].
  exact (release_loop_dom _ _ _ _ Hrun).
Qed.

Lemma release_run (p : NodePtr) (h h' : heap) (fuel : nat) :
  release_loop fuel [p] h = Some h' → release p h = ([], Returns tt h').
Proof.
  intros Hrun. unfold release.
  destruct (release_loop_enough (potential [p] h) [p] h (le_n _)) as [h'' Hrun'].
  rewrite Hrun'. do 3 f_equal.
  destruct (Nat.le_ge_cases fuel (potential [p] h)) as [Hle|Hle].
  - rewrite (release_loop_more_fuel _ _ _ _ _ Hrun Hle) in Hrun'. congruence.
  - rewrite (release_loop_more_fuel _ _ _ _ _ Hrun' Hle) in Hrun. congruence.
Qed.

(** While another owner remains the node stays, with one owner less. *)
Lemma release_shared (h : heap) (a : addr) (b : block) :
  h !! a = Some b → (1 < use_count b)%nat →
  release (Some a) h = ([], Returns tt (<[a := unshare_block b]> h)).
Proof.
  intros Hb Hc. apply (release_run _ _ _ 1%nat). cbn. rewrite Hb.
  destruct (decide (use_count b ≤ 1)%nat); [lia | reflexivity].
Qed.

(** The last owner takes the node with it. *)
Lemma release_last (h : heap) (a : addr) (b : block) :
  h !! a = Some b → (use_count b ≤ 1)%nat →
  ∃ h', release (Some a) h = ([], Returns tt h') ∧ h' !! a = None.
Proof.
  intros Hb Hc.
  destruct (release_loop_enough (potential [Some a] h) [Some a] h (le_n _)) as [h' Hrun].
  exists h'. split; [exact (release_run _ _ _ _ Hrun)|].
  destruct (potential [Some a] h) as [|fuel]; [discriminate|].
  cbn in Hrun. rewrite Hb in Hrun.
  destruct (decide (use_count b ≤ 1)%nat); [|lia].
  apply release_loop_dom in Hrun. apply not_elem_of_dom.
  intros Ha. apply Hrun in Ha. rewrite dom_delete_L in Ha.
  apply elem_of_difference in Ha as [_ Ha]. apply Ha, elem_of_singleton. reflexivity.
Qed.

(** A chain of control dependencies is reclaimed when the local pointers go
    away. *)
Lemma chain_graph_reclaimed : final (chain_graph ∅) = Some ∅.
Proof. vm_compute. reflexivity. Qed.

(** C9, as the spec has it, fails: with [NodePtr = std::shared_ptr<Node>]
    two nodes that name each other in [control_deps] are both still
    allocated, each with one owner (the other node), after every pointer the
    program held has been released. *)
Lemma control_dep_cycle_leaks :
  final (cycle_graph ∅)
  = Some {[ 1%positive := cycle_node 2%positive; 2%positive := cycle_node 1%positive ]} ∧
  final (cycle_graph ∅) ≠ Some ∅.
Proof.
  assert (Hrun : final (cycle_graph ∅)
                 = Some {[ 1%positive := cycle_node 2%positive; 2%positive := cycle_node 1%positive ]})
    by (vm_compute; reflexivity).
  split; [exact Hrun|].
  rewrite Hrun. intros Heq.
  assert (Hlook : ({[ 1%positive := cycle_node 2%positive;
                      2%positive := cycle_node 1%positive ]} : heap) !! 1%positive
                  = (∅ : heap) !! 1%positive) by congruence.
  discriminate Hlook.
Qed.

(** C9, amended.  A [NodePtr] shares ownership of the node it points to:
    a copy adds an owner and leaves the node where and as it is; releasing a
    pointer while another owner remains takes one owner away and keeps the
    node; releasing the last owner destroys the node. *)
Theorem NodePtr_shares_ownership (h : heap) (a : addr) (b : block) :
  h !! a = Some b →
  copy_ptr (Some a) h = ([], Returns (Some a) (<[a := share_block b]> h)) ∧
  ((1 < use_count b)%nat →
     release (Some a) h = ([], Returns tt (<[a := unshare_block b]> h))) ∧
  ((use_count b ≤ 1)%nat →
     ∃ h', release (Some a) h = ([], Returns tt h') ∧ h' !! a = None).
Proof.
  intros Hb. split; [exact (copy_ptr_run h a b Hb)|].
  split; [exact (release_shared h a b Hb) | exact (release_last h a b Hb)].
Qed.

Lemma NodePtr_shares_ownership_witness :
  (copy_ptr (Some 1%positive) (one_node_heap Node_default)
   = ([], Returns (Some 1%positive)
            (<[1%positive := share_block {| use_count := 1; object := Node_default |}]>
               (one_node_heap Node_default))) ∧
   ∃ h', release (Some 1%positive) (one_node_heap Node_default) = ([], Returns tt h') ∧
         h' !! 1%positive = None) ∧
  release (Some 1%positive) (shared_node_heap Node_default)
  = ([], Returns tt
           (<[1%positive := unshare_block {| use_count := 2; object := Node_default |}]>
              (shared_node_heap Node_default))).
Proof.
  split.
  - destruct (NodePtr_shares_ownership (one_node_heap Node_default) 1%positive
                {| use_count := 1; object := Node_default |} eq_refl)
      as (Hcopy & _ & Hlast).
    split; [exact Hcopy|]. apply Hlast. cbn. lia.
  - destruct (NodePtr_shares_ownership (shared_node_heap Node_default)
                1%positive {| use_count := 2; object := Node_default |} eq_refl)
      as (_ & Hshared & _).
    apply Hshared. cbn. lia.
Defined.

(** * Further properties *)

(** ** What the arity queries depend on *)

(** X1.  The arity queries look at [op] and [attrs] only: nodes that agree on
    these two members give the same counts with the same reads, whatever
    their [inputs] and [control_deps] are.  In particular [num_inputs] is
    not the length of [inputs]. *)
Theorem arity_ignores_inputs_and_control_deps (N N' : Node) :
  op N = op N' → attrs N = attrs N' →
  result (Node.num_outputs N) = result (Node.num_outputs N') ∧
  reads (Node.num_outputs N) = reads (Node.num_outputs N') ∧
  result (Node.num_inputs N) = result (Node.num_inputs N') ∧
  reads (Node.num_inputs N) = reads (Node.num_inputs N').
Proof.
  intros Hop Hattrs. destruct (op N) as [o|] eqn:HN; symmetry in Hop.
  - assert (Hout : ∃ l k, Node.num_outputs N = (l, Returns k N) ∧
                          Node.num_outputs N' = (l, Returns k N')).
    { destruct (Op.get_num_outputs o) as [f|] eqn:Hg.
      - eexists _, _. rewrite (num_outputs_dynamic N o HN f Hg),
          (num_outputs_dynamic N' o Hop f Hg), Hattrs. split; reflexivity.
      - eexists _, _. rewrite (num_outputs_static N o HN Hg),
          (num_outputs_static N' o Hop Hg). split; reflexivity. }
    assert (Hin : ∃ l k, Node.num_inputs N = (l, Returns k N) ∧
                         Node.num_inputs N' = (l, Returns k N')).
    { destruct (Op.get_num_inputs o) as [g|] eqn:Hg.
      - eexists _, _. rewrite (num_inputs_dynamic N o HN g Hg),
          (num_inputs_dynamic N' o Hop g Hg), Hattrs. split; reflexivity.
      - eexists _, _. rewrite (num_inputs_static N o HN Hg),
          (num_inputs_static N' o Hop Hg). split; reflexivity. }
    destruct Hout as (lo & ko & -> & ->), Hin as (li & ki & -> & ->).
    repeat split.
  - rewrite (num_outputs_variable N HN), (num_outputs_variable N' Hop),
      (num_inputs_variable N HN), (num_inputs_variable N' Hop).
    repeat split.
Qed.

Lemma arity_ignores_inputs_and_control_deps_witness :
  result (Node.num_outputs consumer_of_1)
    = result (Node.num_outputs (node_of add_op NodeAttrs_default)) ∧
  reads (Node.num_outputs consumer_of_1)
    = reads (Node.num_outputs (node_of add_op NodeAttrs_default)) ∧
  result (Node.num_inputs consumer_of_1)
    = result (Node.num_inputs (node_of add_op NodeAttrs_default)) ∧
  reads (Node.num_inputs consumer_of_1)
    = reads (Node.num_inputs (node_of add_op NodeAttrs_default)).
Proof.
  apply (arity_ignores_inputs_and_control_deps consumer_of_1
           (node_of add_op NodeAttrs_default)); reflexivity.
Defined.

(** X2.  A callback, when set, takes the place of the static count: the static
    count is not read, and another value for it gives the same answer. *)
Theorem callback_overrides_static_count
    (o : Op) (ins : list NodeEntry) (deps : list NodePtr) (a : NodeAttrs)
    (k_in k_out : uint32_t) :
  let N := {| op := Some o; inputs := ins; control_deps := deps; attrs := a |} in
  let o' := {| Op.num_inputs := k_in; Op.num_outputs := k_out;
               Op.get_num_outputs := Op.get_num_outputs o;
               Op.get_num_inputs := Op.get_num_inputs o |} in
  let N' := {| op := Some o'; inputs := ins; control_deps := deps; attrs := a |} in
  (is_nullptr (Op.get_num_outputs o) = false →
     (f_num_outputs ∉ reads (Node.num_outputs N)) ∧
     result (Node.num_outputs N') = result (Node.num_outputs N)) ∧
  (is_nullptr (Op.get_num_inputs o) = false →
     (f_num_inputs ∉ reads (Node.num_inputs N)) ∧
     result (Node.num_inputs N') = result (Node.num_inputs N)).
Proof.
  intros N o' N'. split; intros Hset.
  - destruct (Op.get_num_outputs o) as [f|] eqn:Hg; [|discriminate].
    rewrite (num_outputs_dynamic N o eq_refl f Hg),
      (num_outputs_dynamic N' o' eq_refl f eq_refl).
    split; [|reflexivity]. cbn. intros Hin.
    repeat (apply elem_of_cons in Hin as [Hin|Hin]; [discriminate|]).
    by apply elem_of_nil in Hin.
  - destruct (Op.get_num_inputs o) as [g|] eqn:Hg; [|discriminate].
    rewrite (num_inputs_dynamic N o eq_refl g Hg),
      (num_inputs_dynamic N' o' eq_refl g eq_refl).
    split; [|reflexivity]. cbn. intros Hin.
    repeat (apply elem_of_cons in Hin as [Hin|Hin]; [discriminate|]).
    by apply elem_of_nil in Hin.
Qed.

Lemma callback_overrides_static_count_witness :
  ((f_num_outputs ∉ reads (Node.num_outputs (node_of split_op (attrs_with_scalars 3)))) ∧
   result (Node.num_outputs
             (node_of {| Op.num_inputs := 9; Op.num_outputs := 7;
                         Op.get_num_outputs := Some count_scalars;
                         Op.get_num_inputs := None |} (attrs_with_scalars 3)))
   = result (Node.num_outputs (node_of split_op (attrs_with_scalars 3)))) ∧
  ((f_num_inputs ∉ reads (Node.num_inputs (node_of concat_op (attrs_with_scalars 3)))) ∧
   result (Node.num_inputs
             (node_of {| Op.num_inputs := 9; Op.num_outputs := 7;
                         Op.get_num_outputs := None;
                         Op.get_num_inputs := Some count_scalars |} (attrs_with_scalars 3)))
   = result (Node.num_inputs (node_of concat_op (attrs_with_scalars 3)))).
Proof.
  split.
  - exact (proj1 (callback_overrides_static_count split_op [] []
                    (attrs_with_scalars 3) 9 7) eq_refl).
  - exact (proj2 (callback_overrides_static_count concat_op [] []
                    (attrs_with_scalars 3) 9 7) eq_refl).
Defined.

(** ** Nodes behind pointers *)

Lemma call_run {A : Type} (m : Node.method A) (h : heap) (a : addr) (b : block)
    (l : list op_field) (r : A) (n' : Node) :
  h !! a = Some b →
  m (object b) = (l, Returns r n') →
  call (Some a) m h
  = (l, Returns r (<[a := {| use_count := use_count b; object := n' |}]> h)).
Proof. intros Hb Hm. unfold call. rewrite Hb, Hm. reflexivity. Qed.

Lemma Op_outputs_run (N : Node) (o : Op) :
  op N = Some o →
  ∃ l, Node.num_outputs N = (l, Returns (Op_outputs o (attrs N)) N).
Proof.
  intros Hop. unfold Op_outputs.
  destruct (Op.get_num_outputs o) as [f|] eqn:Hg.
  - eexists. exact (num_outputs_dynamic N o Hop f Hg).
  - eexists. exact (num_outputs_static N o Hop Hg).
Qed.

Lemma Op_inputs_run (N : Node) (o : Op) :
  op N = Some o →
  ∃ l, Node.num_inputs N = (l, Returns (Op_inputs o (attrs N)) N).
Proof.
  intros Hop. unfold Op_inputs.
  destruct (Op.get_num_inputs o) as [g|] eqn:Hg.
  - eexists. exact (num_inputs_dynamic N o Hop g Hg).
  - eexists. exact (num_inputs_static N o Hop Hg).
Qed.

(** X3.  The arity queries asked through a pointer leave every node of the heap
    and every [use_count] as they were; through a null pointer they fault. *)
Theorem arity_through_pointer_frame (h : heap) (a : addr) (b : block) :
  h !! a = Some b →
  result (call (Some a) Node.num_outputs h) = result (Node.num_outputs (object b)) ∧
  final (call (Some a) Node.num_outputs h) = Some h ∧
  result (call (Some a) Node.num_inputs h) = result (Node.num_inputs (object b)) ∧
  final (call (Some a) Node.num_inputs h) = Some h ∧
  call None Node.num_outputs h = ([], Faults NullDeref) ∧
  call None Node.num_inputs h = ([], Faults NullDeref).
Proof.
  intros Hb.
  destruct (num_outputs_returns (object b)) as (lo & ko & Ho).
  destruct (num_inputs_returns (object b)) as (li & ki & Hi).
  rewrite (call_frame _ h a b lo ko Hb Ho), (call_frame _ h a b li ki Hb Hi), Ho, Hi.
  repeat split.
Qed.

Lemma arity_through_pointer_frame_witness :
  result (call (Some 2%positive) Node.num_outputs consumer_heap)
    = result (Node.num_outputs consumer_of_1) ∧
  final (call (Some 2%positive) Node.num_outputs consumer_heap) = Some consumer_heap ∧
  result (call (Some 2%positive) Node.num_inputs consumer_heap)
    = result (Node.num_inputs consumer_of_1) ∧
  final (call (Some 2%positive) Node.num_inputs consumer_heap) = Some consumer_heap ∧
  call None Node.num_outputs consumer_heap = ([], Faults NullDeref) ∧
  call None Node.num_inputs consumer_heap = ([], Faults NullDeref).
Proof.
  apply (arity_through_pointer_frame consumer_heap 2%positive
           {| use_count := 1; object := consumer_of_1 |}).
  reflexivity.
Defined.

(** X4.  Entries made from one pointer alias the producer: attributes assigned
    through one entry are the attributes the output count is computed from
    when asked through the other. *)
Theorem entries_alias_their_producer
    (h : heap) (a : addr) (b : block) (o : Op) (a' : NodeAttrs) :
  h !! a = Some b → op (object b) = Some o →
  result (assign_through_alias (Some a) a' h) = Some (Op_outputs o a') ∧
  ∃ h', final (assign_through_alias (Some a) a' h) = Some h' ∧
        h' !! a = Some {| use_count := S (S (use_count b));
                          object := {| op := Some o; inputs := inputs (object b);
                                       control_deps := control_deps (object b);
                                       attrs := a' |} |} ∧
        ∀ a0, a0 ≠ a → h' !! a0 = h !! a0.
Proof.
  intros Hb Hop.
  set (b1 := share_block b). set (b2 := share_block b1).
  set (n' := {| op := Some o; inputs := inputs (object b);
                control_deps := control_deps (object b); attrs := a' |}).
  set (h1 := <[a := b1]> h). set (h2 := <[a := b2]> h1).
  set (h3 := <[a := {| use_count := use_count b2; object := n' |}]> h2).
  assert (H1 : h1 !! a = Some b1) by apply lookup_insert_eq.
  assert (H2 : h2 !! a = Some b2) by apply lookup_insert_eq.
  assert (H3 : h3 !! a = Some {| use_count := use_count b2; object := n' |})
    by apply lookup_insert_eq.
  destruct (Op_outputs_run n' o eq_refl) as [l Hrun].
  assert (Hall : assign_through_alias (Some a) a' h = (l, Returns (Op_outputs o a') h3)).
  { unfold assign_through_alias, NodeEntry_init.
    rewrite (bind_returns _ _ h h1 [] {| node := Some a; index := 0; version := 0 |}).
    2:{ rewrite (bind_returns _ _ _ _ _ _ (copy_ptr_run h a b Hb)). reflexivity. }
    rewrite (bind_returns _ _ h1 h2 [] {| node := Some a; index := 0; version := 0 |}).
    2:{ rewrite (bind_returns _ _ _ _ _ _ (copy_ptr_run h1 a b1 H1)). reflexivity. }
    rewrite (bind_returns _ _ h2 h3 [] tt).
    2:{ cbn [node]. apply (call_run _ h2 a b2 [] tt n' H2).
        cbn. unfold n'. rewrite <- Hop. reflexivity. }
    cbn [node fst snd app].
    rewrite (call_frame _ h3 a _ l (Op_outputs o a') H3 Hrun). reflexivity. }
  rewrite Hall.
  split; [reflexivity|]. exists h3. split; [reflexivity|]. split; [exact H3|].
  intros a0 Ha0. unfold h3, h2, h1. rewrite !lookup_insert_ne by congruence. reflexivity.
Qed.

Lemma entries_alias_their_producer_witness :
  result (assign_through_alias (Some 1%positive) (attrs_with_scalars 3)
            (one_node_heap (node_of split_op (attrs_with_scalars 2))))
  = Some (Op_outputs split_op (attrs_with_scalars 3)).
Proof.
  exact (proj1 (entries_alias_their_producer
                  (one_node_heap (node_of split_op (attrs_with_scalars 2)))
                  1%positive
                  {| use_count := 1; object := node_of split_op (attrs_with_scalars 2) |}
                  split_op (attrs_with_scalars 3) eq_refl eq_refl)).
Defined.

(** X5.  A node from the factory that is given an operator and attributes
    through the pointer reports that operator's arity for those attributes,
    and is the only thing that changed in the heap. *)
Theorem factory_node_takes_operator_arity (o : Op) (a : NodeAttrs) (h : heap) :
  ∃ (p : addr) (h' : heap),
    result (make_operator_node o a h) = Some (Some p, Op_outputs o a, Op_inputs o a) ∧
    final (make_operator_node o a h) = Some h' ∧
    h !! p = None ∧
    h' !! p = Some {| use_count := 1;
                      object := {| op := Some o; inputs := []; control_deps := [];
                                   attrs := a |} |} ∧
    ∀ a0, a0 ≠ p → h' !! a0 = h !! a0.
Proof.
  set (p := fresh (dom h)).
  set (n1 := {| op := Some o; inputs := []; control_deps := [];
                attrs := NodeAttrs_default |}).
  set (n2 := {| op := Some o; inputs := []; control_deps := []; attrs := a |}).
  set (h0 := <[p := {| use_count := 1; object := Node_default |}]> h).
  set (h1 := <[p := {| use_count := 1; object := n1 |}]> h0).
  set (h2 := <[p := {| use_count := 1; object := n2 |}]> h1).
  assert (H0 : h0 !! p = Some {| use_count := 1; object := Node_default |})
    by apply lookup_insert_eq.
  assert (H1 : h1 !! p = Some {| use_count := 1; object := n1 |})
    by apply lookup_insert_eq.
  assert (H2 : h2 !! p = Some {| use_count := 1; object := n2 |})
    by apply lookup_insert_eq.
  destruct (Op_outputs_run n2 o eq_refl) as [lo Hout].
  destruct (Op_inputs_run n2 o eq_refl) as [li Hin].
  assert (Hall : make_operator_node o a h
                 = (lo ++ li, Returns (Some p, Op_outputs o a, Op_inputs o a) h2)).
  { unfold make_operator_node.
    rewrite (bind_returns _ _ h h0 [] (Some p)) by reflexivity.
    rewrite (bind_returns _ _ h0 h1 [] tt)
      by (apply (call_run _ h0 p _ [] tt n1 H0); reflexivity).
    rewrite (bind_returns _ _ h1 h2 [] tt)
      by (apply (call_run _ h1 p _ [] tt n2 H1); reflexivity).
    rewrite (bind_returns _ _ h2 h2 lo (Op_outputs o a))
      by (apply (call_frame _ h2 p _ lo _ H2); exact Hout).
    rewrite (bind_returns _ _ h2 h2 li (Op_inputs o a))
      by (apply (call_frame _ h2 p _ li _ H2); exact Hin).
    cbn. rewrite app_nil_r. reflexivity. }
  exists p, h2. rewrite Hall. split; [reflexivity|]. split; [reflexivity|].
  split; [apply not_elem_of_dom, is_fresh|]. split; [exact H2|].
  intros a0 Ha0. unfold h2, h1, h0. rewrite !lookup_insert_ne by congruence. reflexivity.
Qed.

(** ** Owners come and go *)

(** X6.  An entry that is made and destroyed again leaves the heap as it was,
    provided the node it points to had an owner to begin with. *)
Theorem entry_made_and_destroyed (h : heap) (a : addr) (b : block) (i v : uint32_t) :
  h !! a = Some b → (1 ≤ use_count b)%nat →
  (e ← NodeEntry_init (Some a) i v; release (node e)) h = ([], Returns tt h).
Proof.
  intros Hb Hc.
  rewrite (bind_returns _ _ h (<[a := share_block b]> h) []
             {| node := Some a; index := i; version := v |}).
  2:{ unfold NodeEntry_init.
      rewrite (bind_returns _ _ _ _ _ _ (copy_ptr_run h a b Hb)). reflexivity. }
  cbn [node].
  rewrite (release_shared (<[a := share_block b]> h) a (share_block b))
    by (rewrite ?lookup_insert_eq; cbn; (reflexivity || lia)).
  cbn. do 2 f_equal. rewrite insert_insert_eq. apply insert_id.
  rewrite Hb. destruct b; reflexivity.
Qed.

Lemma entry_made_and_destroyed_witness :
  (e ← NodeEntry_init (Some 1%positive) 4 0; release (node e)) consumer_heap
  = ([], Returns tt consumer_heap).
Proof.
  apply (entry_made_and_destroyed consumer_heap 1%positive
           {| use_count := 2; object := Node_default |} 4 0).
  - reflexivity.
  - cbn. lia.
Defined.

(** X7.  A node from the factory whose only pointer is released is gone, and the
    heap is as it was before the node was made. *)
Theorem factory_node_released (h : heap) :
  (p ← Node.Create; release p) h = ([], Returns tt h).
Proof.
  set (a := fresh (dom h)).
  set (b := {| use_count := 1; object := Node_default |}).
  rewrite (bind_returns _ _ h (<[a := b]> h) [] (Some a)) by reflexivity.
  rewrite (release_run (Some a) (<[a := b]> h) h 1).
  - reflexivity.
  - cbn. rewrite lookup_insert_eq. cbn. f_equal.
    rewrite delete_insert_eq. apply delete_id, not_elem_of_dom, is_fresh.
Qed.

(** ** What destruction keeps *)



(** ** Reference counts stay right *)

Lemma heap_sum_delete (w : block → nat) (h : heap) (a : addr) (b : block) :
  h !! a = Some b → heap_sum w h = (w b + heap_sum w (delete a h))%nat.
Proof.
  intros Hb. unfold heap_sum.
  apply (map_fold_delete_L (λ (_ : addr) (b : block) (n : nat), (w b + n)%nat));
    [|exact Hb].
  intros. lia.
Qed.

Lemma heap_sum_insert (w : block → nat) (h : heap) (a : addr) (b' : block) :
  heap_sum w (<[a := b']> h) = (w b' + heap_sum w (delete a h))%nat.
Proof.
  rewrite <- (insert_delete_eq h a b'). unfold heap_sum.
  apply (map_fold_insert_L (λ (_ : addr) (b : block) (n : nat), (w b + n)%nat)).
  - intros. lia.
  - apply lookup_delete_eq.
Qed.

Lemma occurrences_app (a : addr) (ps qs : list NodePtr) :
  occurrences a (ps ++ qs) = (occurrences a ps + occurrences a qs)%nat.
Proof. unfold occurrences. rewrite filter_app, length_app. reflexivity. Qed.

Lemma occurrences_here (a : addr) (ps : list NodePtr) :
  occurrences a (Some a :: ps) = S (occurrences a ps).
Proof. unfold occurrences. rewrite filter_cons_True by reflexivity. reflexivity. Qed.

Lemma occurrences_skip (a : addr) (p : NodePtr) (ps : list NodePtr) :
  p ≠ Some a → occurrences a (p :: ps) = occurrences a ps.
Proof.
  intros Hne. unfold occurrences. rewrite filter_cons_False by assumption. reflexivity.
Qed.

Lemma incoming_delete (h : heap) (a a' : addr) (b : block) :
  h !! a = Some b →
  incoming h a' = (occurrences a' (owned (object b)) + incoming (delete a h) a')%nat.
Proof. intros Hb. unfold incoming. exact (heap_sum_delete _ h a b Hb). Qed.

Lemma incoming_unshare (h : heap) (a a' : addr) (b : block) :
  h !! a = Some b → incoming (<[a := unshare_block b]> h) a' = incoming h a'.
Proof.
  intros Hb. unfold incoming.
  rewrite heap_sum_insert, (heap_sum_delete _ h a b Hb). reflexivity.
Qed.

(** One step of destruction keeps the counts right, whichever step it is. *)
Lemma counted_drop_null (rest : list NodePtr) (h : heap) :
  counted (None :: rest) h → counted rest h.
Proof.
  intros Hcnt x. specialize (Hcnt x).
  rewrite occurrences_skip in Hcnt by discriminate. exact Hcnt.
Qed.

Lemma counted_held_alive (a : addr) (rest : list NodePtr) (h : heap) :
  counted (Some a :: rest) h →
  ∃ b, h !! a = Some b ∧ use_count b = (incoming h a + S (occurrences a rest))%nat.
Proof.
  intros Hcnt. specialize (Hcnt a). rewrite occurrences_here in Hcnt.
  destruct (h !! a) as [b|]; [|lia]. exists b. split; [reflexivity | lia].
Qed.

Lemma counted_destroy (a : addr) (b : block) (rest : list NodePtr) (h : heap) :
  counted (Some a :: rest) h → h !! a = Some b → (use_count b ≤ 1)%nat →
  counted (owned (object b) ++ rest) (delete a h).
Proof.
  intros Hcnt Hb Hlast.
  destruct (counted_held_alive a rest h Hcnt) as (b0 & Hb0 & Huse).
  assert (b0 = b) as -> by congruence.
  pose proof (incoming_delete h a a b Hb) as Hself.
  intros x. specialize (Hcnt x). rewrite occurrences_app.
  destruct (decide (x = a)) as [->|Hne].
  - rewrite lookup_delete_eq. lia.
  - rewrite lookup_delete_ne by congruence.
    rewrite occurrences_skip in Hcnt by congruence.
    rewrite (incoming_delete h a x b Hb) in Hcnt.
    destruct (h !! x); [destruct Hcnt; split|]; lia.
Qed.

Lemma counted_unshare (a : addr) (b : block) (rest : list NodePtr) (h : heap) :
  counted (Some a :: rest) h → h !! a = Some b → (1 < use_count b)%nat →
  counted rest (<[a := unshare_block b]> h).
Proof.
  intros Hcnt Hb Hshared x. specialize (Hcnt x).
  rewrite (incoming_unshare h a x b Hb).
  destruct (decide (x = a)) as [->|Hne].
  - rewrite lookup_insert_eq. rewrite Hb, occurrences_here in Hcnt. cbn. lia.
  - rewrite lookup_insert_ne by congruence.
    rewrite occurrences_skip in Hcnt by congruence. exact Hcnt.
Qed.




Lemma heap_sum_empty (w : block → nat) : heap_sum w ∅ = O.
Proof. unfold heap_sum. apply map_fold_empty. Qed.

Lemma incoming_insert_fresh (h : heap) (a x : addr) (b' : block) :
  h !! a = None →
  incoming (<[a := b']> h) x = (occurrences x (owned (object b')) + incoming h x)%nat.
Proof.
  intros Hb. unfold incoming. rewrite heap_sum_insert, delete_id by exact Hb.
  reflexivity.
Qed.

Lemma incoming_insert (h : heap) (a x : addr) (b b' : block) :
  h !! a = Some b →
  (incoming (<[a := b']> h) x + occurrences x (owned (object b)))%nat
  = (occurrences x (owned (object b')) + incoming h x)%nat.
Proof.
  intros Hb. unfold incoming.
  rewrite heap_sum_insert, (heap_sum_delete _ h a b Hb). lia.
Qed.

Lemma counted_empty : counted [] ∅.
Proof.
  intros a. rewrite lookup_empty. unfold incoming.
  rewrite heap_sum_empty. reflexivity.
Qed.

Lemma consumer_heap_counted : counted [Some 2%positive] consumer_heap.
Proof.
  intros a.
  destruct (decide (a = 1%positive)) as [->|H1]; [vm_compute; lia|].
  destruct (decide (a = 2%positive)) as [->|H2]; [vm_compute; lia|].
  unfold consumer_heap.
  rewrite lookup_insert_ne, lookup_singleton_ne by congruence.
  rewrite incoming_insert_fresh by (apply lookup_singleton_ne; congruence).
  rewrite <- insert_empty, incoming_insert_fresh by apply lookup_empty.
  unfold incoming. rewrite heap_sum_empty.
  unfold owned, consumer_of_1, Node_default.
  cbn [object control_deps inputs map node app].
  rewrite !occurrences_skip by congruence. reflexivity.
Qed.



(** A consumer that is destroyed gives up its pointers to its producers: a
    producer that only the consumer owned goes with it. *)
Lemma consumer_released : final (release (Some 2%positive) consumer_heap) = Some ∅.
Proof. vm_compute. reflexivity. Qed.

(** X10.  New pointers are counted: after the factory, and after an entry is made
    from a pointer to a node, the heap agrees with the pointers that exist,
    the new one included. *)
Theorem new_owners_are_counted (roots : list NodePtr) (h : heap) :
  counted roots h →
  (∃ p h', Node.Create h = ([], Returns (Some p) h') ∧
           counted (Some p :: roots) h') ∧
  (∀ a i v, is_Some (h !! a) →
     ∃ e h', NodeEntry_init (Some a) i v h = ([], Returns e h') ∧
             node e = Some a ∧ counted (node e :: roots) h').
Proof.
  intros Hcnt. split.
  - exists (fresh (dom h)), (<[fresh (dom h) := {| use_count := 1; object := Node_default |}]> h).
    split; [reflexivity|].
    assert (Hp : h !! fresh (dom h) = None) by apply not_elem_of_dom, is_fresh.
    intros x.
    pose proof (incoming_insert_fresh h _ x {| use_count := 1; object := Node_default |} Hp)
      as Hinc.
    change (occurrences x (owned (object {| use_count := 1; object := Node_default |})))
      with O in Hinc.
    rewrite Hinc. specialize (Hcnt x).
    destruct (decide (x = fresh (dom h))) as [->|Hne].
    + rewrite lookup_insert_eq, occurrences_here. rewrite Hp in Hcnt. cbn. lia.
    + rewrite lookup_insert_ne, occurrences_skip by congruence. exact Hcnt.
  - intros a i v [b Hb].
    exists {| node := Some a; index := i; version := v |}, (<[a := share_block b]> h).
    split.
    { unfold NodeEntry_init.
      rewrite (bind_returns _ _ _ _ _ _ (copy_ptr_run h a b Hb)). reflexivity. }
    split; [reflexivity|]. cbn [node].
    intros x. specialize (Hcnt x).
    pose proof (incoming_insert h a x b (share_block b) Hb) as Hinc. cbn in Hinc.
    destruct (decide (x = a)) as [->|Hne].
    + rewrite lookup_insert_eq, occurrences_here. rewrite Hb in Hcnt. cbn. lia.
    + rewrite lookup_insert_ne, occurrences_skip by congruence.
      destruct (h !! x); [destruct Hcnt; split|]; lia.
Qed.

Lemma new_owners_are_counted_witness :
  (∃ p h', Node.Create consumer_heap = ([], Returns (Some p) h') ∧
           counted [Some p; Some 2%positive] h') ∧
  ∃ e h', NodeEntry_init (Some 1%positive) 0 0 consumer_heap = ([], Returns e h') ∧
          node e = Some 1%positive ∧ counted [node e; Some 2%positive] h'.
Proof.
  destruct (new_owners_are_counted [Some 2%positive] consumer_heap consumer_heap_counted)
    as [Hcreate Hentry].
  split; [exact Hcreate|].
  apply Hentry. eexists. reflexivity.
Defined.

(** X11.  A pointer stored in a node is counted: when a held entry is pushed onto
    [inputs], or a held pointer onto [control_deps], of a node in the heap,
    the heap agrees with the pointers that are left outside. *)
Theorem stored_pointers_are_counted
    (roots : list NodePtr) (h : heap) (a : addr) (b : block) (e : NodeEntry) (q : NodePtr) :
  h !! a = Some b →
  (counted (node e :: roots) h →
     ∃ h', call (Some a) (Node.push_input e) h = ([], Returns tt h') ∧
           counted roots h') ∧
  (counted (q :: roots) h →
     ∃ h', call (Some a) (Node.push_control_dep q) h = ([], Returns tt h') ∧
           counted roots h').
Proof.
  intros Hb.
  assert (Hstep : ∀ (p : NodePtr) (n' : Node),
            (∀ x, occurrences x (owned n')
                  = (occurrences x (owned (object b)) + occurrences x [p])%nat) →
            counted (p :: roots) h →
            counted roots (<[a := {| use_count := use_count b; object := n' |}]> h)).
  { intros p n' Hown Hcnt x. specialize (Hcnt x).
    pose proof (incoming_insert h a x b {| use_count := use_count b; object := n' |} Hb)
      as Hinc. cbn in Hinc. rewrite Hown in Hinc.
    assert (Hocc : occurrences x (p :: roots)
                   = (occurrences x [p] + occurrences x roots)%nat)
      by exact (occurrences_app x [p] roots).
    rewrite Hocc in Hcnt.
    destruct (decide (x = a)) as [->|Hne].
    - rewrite lookup_insert_eq. rewrite Hb in Hcnt. cbn. lia.
    - rewrite lookup_insert_ne by congruence.
      destruct (h !! x); [destruct Hcnt; split|]; lia. }
  split; intros Hcnt.
  - eexists. split; [exact (call_run _ h a b [] tt _ Hb eq_refl)|].
    apply (Hstep (node e)); [|exact Hcnt].
    intros x. unfold owned. cbn [inputs control_deps].
    rewrite map_app, app_assoc, !occurrences_app. reflexivity.
  - eexists. split; [exact (call_run _ h a b [] tt _ Hb eq_refl)|].
    apply (Hstep q); [|exact Hcnt].
    intros x. unfold owned. cbn [inputs control_deps].
    rewrite !occurrences_app. lia.
Qed.

Lemma stored_pointers_are_counted_witness :
  (∃ h', call (Some 1%positive)
           (Node.push_input {| node := Some 2%positive; index := 0; version := 0 |})
           consumer_heap = ([], Returns tt h') ∧ counted [] h') ∧
  (∃ h', call (Some 1%positive) (Node.push_control_dep (Some 2%positive))
           consumer_heap = ([], Returns tt h') ∧ counted [] h').
Proof.
  destruct (stored_pointers_are_counted [] consumer_heap 1%positive
              {| use_count := 2; object := Node_default |}
              {| node := Some 2%positive; index := 0; version := 0 |}
              (Some 2%positive) eq_refl) as [Hin Hdep].
  split; [exact (Hin consumer_heap_counted) | exact (Hdep consumer_heap_counted)].
Defined.

(** ** What destruction never reclaims *)

Lemma incoming_at_least (h : heap) (c a : addr) (b : block) :
  h !! c = Some b → Some a ∈ owned (object b) → (1 ≤ incoming h a)%nat.
Proof.
  intros Hb Hin. rewrite (incoming_delete h c a b Hb).
  apply list_elem_of_split in Hin as (l1 & l2 & ->).
  rewrite occurrences_app, occurrences_here. lia.
Qed.

Lemma release_loop_self_sustaining (C : gset addr) (fuel : nat) :
  ∀ (stack roots : list NodePtr) (h h' : heap),
    counted (stack ++ roots) h → self_sustaining C h →
    release_loop fuel stack h = Some h' →
    self_sustaining C h' ∧
    ∀ c, c ∈ C → object <$> h' !! c = object <$> h !! c.
Proof.
  induction fuel as [|fuel IH]; intros stack roots h h' Hcnt HC Hrun.
  - destruct stack; [|discriminate]. cbn in Hrun. simplify_eq. by split.
  - destruct stack as [|p rest]; [cbn in Hrun; simplify_eq; by split|].
    cbn in Hrun. cbn [app] in Hcnt. destruct p as [a|].
    2:{ exact (IH rest roots h h' (counted_drop_null _ h Hcnt) HC Hrun). }
    destruct (counted_held_alive a _ h Hcnt) as (b & Hb & Huse). rewrite Hb in Hrun.
    destruct (decide (use_count b ≤ 1)%nat) as [Hlast|Hshared].
    + assert (Hout : a ∉ C).
      { intros Ha. destruct (HC a Ha) as (_ & c' & b' & _ & Hb' & Hin).
        pose proof (incoming_at_least h c' a b' Hb' Hin). lia. }
      assert (Hne : ∀ c, c ∈ C → c ≠ a) by (intros c Hc ->; exact (Hout Hc)).
      destruct (IH (owned (object b) ++ rest) roots (delete a h) h') as [HC' Hobj].
      * rewrite <- app_assoc. exact (counted_destroy a b _ h Hcnt Hb Hlast).
      * intros c Hc. destruct (HC c Hc) as (Hc_alive & c' & b' & Hc' & Hb' & Hin).
        split; [rewrite lookup_delete_ne by (apply not_eq_sym, Hne, Hc); exact Hc_alive|].
        exists c', b'. split; [exact Hc'|]. split; [|exact Hin].
        rewrite lookup_delete_ne by (apply not_eq_sym, Hne, Hc'). exact Hb'.
      * exact Hrun.
      * split; [exact HC'|]. intros c Hc. rewrite (Hobj c Hc).
        rewrite lookup_delete_ne by (apply not_eq_sym, Hne, Hc). reflexivity.
    + destruct (IH rest roots (<[a := unshare_block b]> h) h') as [HC' Hobj].
      * apply (counted_unshare a b _ h Hcnt Hb). lia.
      * intros c Hc. destruct (HC c Hc) as (Hc_alive & c' & b' & Hc' & Hb' & Hin).
        split.
        { destruct (decide (c = a)) as [->|Hca];
            [rewrite lookup_insert_eq; eauto
            |rewrite lookup_insert_ne by congruence; exact Hc_alive]. }
        destruct (decide (c' = a)) as [->|Hca].
        { exists a, (unshare_block b). split; [exact Hc'|].
          split; [apply lookup_insert_eq|]. cbn. congruence. }
        exists c', b'. split; [exact Hc'|]. split; [|exact Hin].
        rewrite lookup_insert_ne by congruence. exact Hb'.
      * exact Hrun.
      * split; [exact HC'|]. intros c Hc. rewrite (Hobj c Hc).
        destruct (decide (c = a)) as [->|Hca].
        { rewrite lookup_insert_eq, Hb. reflexivity. }
        rewrite lookup_insert_ne by congruence. reflexivity.
Qed.

Lemma held_cycle_heap_counted : counted [Some 2%positive] held_cycle_heap.
Proof.
  intros a.
  destruct (decide (a = 1%positive)) as [->|H1]; [vm_compute; lia|].
  destruct (decide (a = 2%positive)) as [->|H2]; [vm_compute; lia|].
  unfold held_cycle_heap.
  rewrite lookup_insert_ne, lookup_singleton_ne by congruence.
  rewrite incoming_insert_fresh by (apply lookup_singleton_ne; congruence).
  rewrite <- insert_empty, incoming_insert_fresh by apply lookup_empty.
  unfold incoming. rewrite heap_sum_empty.
  unfold owned, cycle_node.
  cbn [object control_deps inputs map node app].
  rewrite !occurrences_skip by congruence. reflexivity.
Qed.

Lemma held_cycle_heap_sustains :
  self_sustaining {[ 1%positive; 2%positive ]} held_cycle_heap.
Proof.
  intros c Hc. apply elem_of_union in Hc as [Hc|Hc]; apply elem_of_singleton in Hc as ->.
  - split; [eexists; reflexivity|].
    exists 2%positive, {| use_count := 2; object := object (cycle_node 1%positive) |}.
    split; [set_solver|]. split; [reflexivity|]. cbn. set_solver.
  - split; [eexists; reflexivity|].
    exists 1%positive, (cycle_node 2%positive).
    split; [set_solver|]. split; [reflexivity|]. cbn. set_solver.
Qed.

(** X12.  Nodes that keep each other alive are never reclaimed: in a heap whose
    counts are right, releasing a pointer destroys no node of a set in which
    every node is pointed to from within the set, and changes no member of
    such a node.  A cycle of control dependencies stays allocated when the
    last outside pointer to it is released. *)
Theorem release_never_reclaims_cycles
    (C : gset addr) (p : NodePtr) (roots : list NodePtr) (h : heap) :
  counted (p :: roots) h → self_sustaining C h →
  ∃ h', release p h = ([], Returns tt h') ∧
        self_sustaining C h' ∧
        ∀ c, c ∈ C → ∃ b b', h !! c = Some b ∧ h' !! c = Some b' ∧
                             object b' = object b.
Proof.
  intros Hcnt HC.
  destruct (release_loop_enough (potential [p] h) [p] h (le_n _)) as [h' Hrun].
  destruct (release_loop_self_sustaining C _ [p] roots h h' Hcnt HC Hrun) as [HC' Hobj].
  exists h'. split; [exact (release_run _ _ _ _ Hrun)|]. split; [exact HC'|].
  intros c Hc. specialize (Hobj c Hc).
  destruct (HC c Hc) as [[b Hb] _], (HC' c Hc) as [[b' Hb'] _].
  exists b, b'. rewrite Hb, Hb' in Hobj. cbn in Hobj.
  split; [exact Hb|]. split; [exact Hb'|]. congruence.
Qed.

Lemma release_never_reclaims_cycles_witness :
  ∃ h', release (Some 2%positive) held_cycle_heap = ([], Returns tt h') ∧
        self_sustaining {[ 1%positive; 2%positive ]} h' ∧
        ∀ c, c ∈ ({[ 1%positive; 2%positive ]} : gset addr) →
             ∃ b b', held_cycle_heap !! c = Some b ∧ h' !! c = Some b' ∧
                     object b' = object b.
Proof.
  exact (release_never_reclaims_cycles {[ 1%positive; 2%positive ]} (Some 2%positive) []
           held_cycle_heap held_cycle_heap_counted held_cycle_heap_sustains).
Defined.
